(** * lab7: sequential and multi-threaded summation of a buffer

    A shallow embedding of [lab7.cpp]: the class template [VectorRam<T>]
    (constructor, [InitByVal], the four [Sum] overloads, the four [SumFR]
    overloads), the worker function [thread_sum] and the record
    [FuncResult<T>].

    Conventions of the embedding.
    - [size_t] is a 64-bit unsigned integer and [unsigned] a 32-bit one;
      both are integers of [Z] with the wrap-around written out.
    - The element type [T] is an integer type given by its width and
      signedness; [+=] on it wraps (two's complement).
    - [data[i]] is a raw, unchecked access: reading or writing outside the
      allocation is undefined behaviour, as is an integer division by zero.
    - A method is a state transformer over the object; it returns how the
      call ended together with the object as the call left it.
    - The order in which the workers take the mutex, and the two readings
      of the clock, are inputs of the model. *)

From Stdlib Require Import ZArith List Bool Lia Permutation.
Import ListNotations.
Local Open Scope Z_scope.

(** ** Machine integers *)

Definition size_t_bits : Z := 64.
Definition unsigned_bits : Z := 32.
Definition SIZE_MAX : Z := 2 ^ size_t_bits - 1.
Definition UINT_MAX : Z := 2 ^ unsigned_bits - 1.

(** Reduction of an integer into [size_t], resp. [unsigned]. *)
Definition wrap_size (x : Z) : Z := x mod 2 ^ size_t_bits.
Definition wrap_uint (x : Z) : Z := x mod 2 ^ unsigned_bits.

(** An integer element type [T]. *)
Record IntType : Type := mkIntType { bits : Z; signed : bool }.

Definition int32 : IntType := mkIntType 32 true.
Definition uint32 : IntType := mkIntType 32 false.
Definition uint8 : IntType := mkIntType 8 false.

(** The value of type [T] that an integer is stored as. *)
Definition normT (T : IntType) (x : Z) : Z :=
  if signed T
  then (x + 2 ^ (bits T - 1)) mod 2 ^ bits T - 2 ^ (bits T - 1)
  else x mod 2 ^ bits T.

(** [a += b] on [T]. *)
Definition addT (T : IntType) (a b : Z) : Z := normT T (a + b).

(** ** How a call ends *)

(** The error kinds a caller may be handed: the three kinds of the
    specification, and the two exceptions [new T[size]] throws
    ([std::bad_array_new_length], [std::bad_alloc]). *)
Inductive error : Type :=
| InvalidArgument
| OutOfRange
| WorkerFailure
| BadArrayNewLength
| BadAlloc.

(** The undefined behaviours the program can run into. *)
Inductive undefined_behaviour : Type :=
| DivisionByZero
| OutOfBoundsAccess.

Inductive result (A : Type) : Type :=
| Ok (a : A)
| Raise (e : error)
| Undefined (u : undefined_behaviour)
| OutOfFuel.

Arguments Ok {A} a.
Arguments Raise {A} e.
Arguments Undefined {A} u.
Arguments OutOfFuel {A}.

Definition map_result {A B : Type} (f : A -> B) (r : result A) : result B :=
  match r with
  | Ok a => Ok (f a)
  | Raise e => Raise e
  | Undefined u => Undefined u
  | OutOfFuel => OutOfFuel
  end.

(** ** The allocator

    What [new T[n]] depends on besides its argument: the limit of the
    implementation on the byte size of an array, and whether the
    allocation function can provide a block of a given byte size at the
    time of the call. *)
Record allocator : Type :=
  mkAllocator { array_limit : Z; provides : Z -> bool }.

(** [sizeof(T)]. *)
Definition sizeofT (T : IntType) : Z := bits T / 8.

(** ** The object *)

(** [data] is the allocation the pointer of the same name refers to;
    [size] is the field of the same name. *)
Record VectorRam : Type := mkVectorRam { data : list Z; size : Z }.

(** A method: from the object before the call to the way the call ended
    and the object after it (for a call that did not return: the object at
    the point where it stopped). *)
Definition M (A : Type) : Type := VectorRam -> result A * VectorRam.

Definition ret {A : Type} (a : A) : M A := fun v => (Ok a, v).

Definition bind {A B : Type} (c : M A) (k : A -> M B) : M B :=
  fun v =>
    match c v with
    | (Ok a, v') => k a v'
    | (Raise e, v') => (Raise e, v')
    | (Undefined u, v') => (Undefined u, v')
    | (OutOfFuel, v') => (OutOfFuel, v')
    end.

Definition undefined {A : Type} (u : undefined_behaviour) : M A :=
  fun v => (Undefined u, v).

Definition out_of_fuel {A : Type} : M A := fun v => (OutOfFuel, v).

Declare Scope vr_scope.
Delimit Scope vr_scope with vr.
Notation "x <- c ;; k" := (bind c (fun x => k))
  (at level 100, c at next level, right associativity) : vr_scope.
Local Open Scope vr_scope.

(** [data[i]] as an rvalue. *)
Definition load (i : Z) : M Z :=
  fun v =>
    match nth_error (data v) (Z.to_nat i) with
    | Some x => (Ok x, v)
    | None => (Undefined OutOfBoundsAccess, v)
    end.

Fixpoint list_set (l : list Z) (n : nat) (x : Z) : list Z :=
  match l, n with
  | [], _ => []
  | _ :: t, O => x :: t
  | h :: t, S n' => h :: list_set t n' x
  end.

(** [data[i] = x]. *)
Definition store (i x : Z) : M unit :=
  fun v =>
    if (Z.to_nat i <? length (data v))%nat
    then (Ok tt, mkVectorRam (list_set (data v) (Z.to_nat i) x) (size v))
    else (Undefined OutOfBoundsAccess, v).

Section Element.

Variable T : IntType.

(** ** VectorRam(size_t size)

    [data = new T[size]].  The new-expression throws
    [std::bad_array_new_length] when the byte size of the array exceeds
    the limit of the implementation, and [std::bad_alloc] when the
    allocation function cannot provide the block; the constructor catches
    neither.  Otherwise the elements of an integer type are left with
    indeterminate values: [junk] supplies them. *)
Definition VectorRam_new (al : allocator) (sz : Z) (junk : nat -> Z)
  : result VectorRam :=
  let bytes := sz * sizeofT T in
  if array_limit al <? bytes then Raise BadArrayNewLength
  else if provides al bytes
       then Ok (mkVectorRam
                  (map (fun k => normT T (junk k)) (seq 0 (Z.to_nat sz))) sz)
       else Raise BadAlloc.

(** ** InitByVal

    [for (size_t i = 0; i < size; i++) data[i] = val;] *)
Fixpoint InitByVal_loop (fuel : nat) (i val : Z) : M unit :=
  match fuel with
  | O => out_of_fuel
  | S fuel' =>
      fun v =>
        if i <? size v
        then (_ <- store i val ;; InitByVal_loop fuel' (wrap_size (i + 1)) val) v
        else ret tt v
  end.

Definition InitByVal (val : Z) : M unit :=
  fun v => InitByVal_loop (S (Z.to_nat (size v))) 0 val v.

(** ** The summation loop

    [for (size_t i = indStart; i <= indEnd; i++) acc += data[i];]
    It is written twice in the source, in [thread_sum] (on [local_sum]) and
    in [Sum(size_t, size_t)] (on [result]). *)
Fixpoint sum_loop (fuel : nat) (i indEnd acc : Z) : M Z :=
  match fuel with
  | O => out_of_fuel
  | S fuel' =>
      if i <=? indEnd
      then x <- load i ;; sum_loop fuel' (wrap_size (i + 1)) indEnd (addT T acc x)
      else ret acc
  end.

(** Every turn of the loop that does not end the call reads one more
    element of the allocation, so one turn more than the allocation has
    elements is all the loop can take (see [sum_loop_fuel]). *)
Definition loop_fuel (v : VectorRam) : nat := S (length (data v)).

(** ** T Sum(size_t indStart, size_t indEnd) *)
Definition Sum_range (indStart indEnd : Z) : M Z :=
  fun v => sum_loop (loop_fuel v) indStart indEnd 0 v.

(** ** T Sum() *)
Definition Sum_all : M Z :=
  fun v => Sum_range 0 (wrap_size (size v - 1)) v.

(** ** thread_sum

    The first half of a worker: its local sum.  The second half, the
    guarded [sum += local_sum], is [merge] below. *)
Definition thread_sum_local (indStart indEnd : Z) : M Z :=
  fun v => sum_loop (loop_fuel v) indStart indEnd 0 v.

(** ** T Sum(size_t indStart, size_t indEnd, unsigned threadsNum) *)

(** [thIndStart] and [thIndEnd] of the worker [i]. *)
Definition thIndStart_of (indStart thBlockSize i : Z) : Z :=
  wrap_size (indStart + wrap_size (i * thBlockSize)).

Definition thIndEnd_of (thIndStart thBlockSize : Z) : Z :=
  wrap_size (wrap_size (thIndStart + thBlockSize) - 1).

(** The launching loop [for (size_t i = 0; i < threadsNum; i++)], with
    [k] the number of turns left: the index range handed to each worker,
    in the order the workers are created. *)
Fixpoint launch (k : nat) (i indStart indEnd thBlockSize threadsNum : Z)
  : list (Z * Z) :=
  match k with
  | O => []
  | S k' =>
      let thIndStart := thIndStart_of indStart thBlockSize i in
      let thIndEnd :=
        if i =? wrap_uint (threadsNum - 1)
        then indEnd
        else thIndEnd_of thIndStart thBlockSize in
      (thIndStart, thIndEnd)
        :: launch k' (wrap_size (i + 1)) indStart indEnd thBlockSize threadsNum
  end.

(** [blockSize] and [thBlockSize]; the division is guarded by the caller. *)
Definition blockSize_of (indStart indEnd : Z) : Z :=
  wrap_size (wrap_size (indEnd - indStart) + 1).

Definition partition_plan (indStart indEnd threadsNum : Z) : list (Z * Z) :=
  launch (Z.to_nat threadsNum) 0 indStart indEnd
         (blockSize_of indStart indEnd / threadsNum) threadsNum.

(** The local sums of the workers of a plan.  The workers only read the
    buffer, so the interleaving of their loops has no influence on what
    they read; they are run here in the order of the plan. *)
Fixpoint run_workers (plan : list (Z * Z)) : M (list Z) :=
  match plan with
  | [] => ret []
  | (thIndStart, thIndEnd) :: rest =>
      l <- thread_sum_local thIndStart thIndEnd ;;
      ls <- run_workers rest ;;
      ret (l :: ls)
  end.

(** The guarded additions [sum += local_sum], in the order [sched] in
    which the workers take the mutex, starting from [T sum = 0]. *)
Definition merge (sched : list nat) (locals : list Z) : Z :=
  fold_left (fun sum k => addT T sum (nth k locals 0)) sched 0.

(** A schedule of [n] workers: every worker takes the mutex once. *)
Definition valid_schedule (n : nat) (sched : list nat) : bool :=
  (length sched =? n)%nat
  && forallb (fun k => existsb (Nat.eqb k) sched) (seq 0 n).

Definition Sum_range_par (sched : list nat) (indStart indEnd threadsNum : Z)
  : M Z :=
  if threadsNum =? 0
  then undefined DivisionByZero
  else
    locals <- run_workers (partition_plan indStart indEnd threadsNum) ;;
    ret (merge sched locals).

(** ** T Sum(unsigned threadsNum) *)
Definition Sum_all_par (sched : list nat) (threadsNum : Z) : M Z :=
  fun v => Sum_range_par sched 0 (wrap_size (size v - 1)) threadsNum v.

(** ** FuncResult and the timed variants *)

Record FuncResult : Type := mkFuncResult { _result : Z; _time : Z }.

(** The two readings of [high_resolution_clock::now()], in nanoseconds. *)
Record clock : Type := mkClock { clock_start : Z; clock_stop : Z }.

(** [duration_cast<microseconds>(stop - start).count()].  The constructor
    of [FuncResult] takes the count as a [double] and stores it in a
    [long long]; that round trip is the identity on every count below
    2^53 and is left out. *)
Definition elapsed_us (c : clock) : Z :=
  Z.quot (clock_stop c - clock_start c) 1000.

(** FuncResult<T> SumFR(size_t indStart, size_t indEnd) *)
Definition SumFR_range (c : clock) (indStart indEnd : Z) : M FuncResult :=
  r <- Sum_range indStart indEnd ;;
  ret (mkFuncResult r (elapsed_us c)).

(** FuncResult<T> SumFR() *)
Definition SumFR_all (c : clock) : M FuncResult :=
  fun v => SumFR_range c 0 (wrap_size (size v - 1)) v.

(** FuncResult<T> SumFR(size_t indStart, size_t indEnd, unsigned threadsNum) *)
Definition SumFR_range_par (c : clock) (sched : list nat)
  (indStart indEnd threadsNum : Z) : M FuncResult :=
  r <- Sum_range_par sched indStart indEnd threadsNum ;;
  ret (mkFuncResult r (elapsed_us c)).

(** FuncResult<T> SumFR(unsigned threadsNum) *)
Definition SumFR_all_par (c : clock) (sched : list nat) (threadsNum : Z)
  : M FuncResult :=
  fun v => SumFR_range_par c sched 0 (wrap_size (size v - 1)) threadsNum v.

End Element.

(** ** The plan as the specification words it, and index sets *)

(** [0; 1; ...; n-1] as integers. *)
Definition Zrange (n : Z) : list Z := map Z.of_nat (seq 0 (Z.to_nat n)).

(** The plan in the words of the specification, over the integers:
    worker [i < workerCount - 1] gets [start + i*b, start + (i+1)*b - 1]
    with [b = floor(len / workerCount)], the last worker gets
    [start + (workerCount-1)*b, end]. *)
Definition spec_plan (rstart rend workerCount : Z) : list (Z * Z) :=
  let len := rend - rstart + 1 in
  let b := len / workerCount in
  map (fun i => (rstart + i * b, rstart + (i + 1) * b - 1))
      (Zrange (workerCount - 1))
  ++ [(rstart + (workerCount - 1) * b, rend)].

(** The indices of an inclusive range, in increasing order; none when the
    range is empty ([start > end]). *)
Definition indices (r : Z * Z) : list Z :=
  map (fun k => fst r + Z.of_nat k) (seq 0 (Z.to_nat (snd r - fst r + 1))).

(** The loop over the inclusive range [r] visits the index [i]. *)
Definition in_range (i : Z) (r : Z * Z) : bool :=
  (fst r <=? i) && (i <=? snd r).

(** The block of size [thBlockSize] number [i] of a range that starts at
    [indStart], over the integers. *)
Definition block_of (indStart thBlockSize i : Z) : Z * Z :=
  (indStart + i * thBlockSize, indStart + (i + 1) * thBlockSize - 1).

(** The buffer of the scenario of the specification: eight elements,
    all 1. *)
Definition ones8 : VectorRam := mkVectorRam [1; 1; 1; 1; 1; 1; 1; 1] 8.

(** An allocator with the limit [PTRDIFF_MAX] on the byte size of an
    array and 2^30 bytes to give. *)
Definition small_allocator : allocator :=
  mkAllocator (2 ^ 63 - 1) (fun bytes => bytes <=? 2 ^ 30).

(** The sum of a list over the integers. *)
Definition Zsum (l : list Z) : Z := fold_right Z.add 0 l.

(** [k] elements of the buffer from the index [a] on. *)
Definition seg (v : VectorRam) (a k : nat) : list Z :=
  firstn k (skipn a (data v)).

(** ** PrintToConsole

    [for (size_t i = 0; i < size; i++) std::cout << data[i] << " ";]
    followed by [std::cout << std::endl].  What is written to the console
    is returned, as a list of tokens. *)
Inductive token : Type :=
| Num (x : Z)
| Space
| Endl.

Fixpoint PrintToConsole_loop (fuel : nat) (i : Z) (out : list token)
  : M (list token) :=
  match fuel with
  | O => out_of_fuel
  | S fuel' =>
      fun v =>
        if i <? size v
        then (x <- load i ;;
              PrintToConsole_loop fuel' (wrap_size (i + 1))
                (out ++ [Num x; Space])) v
        else ret out v
  end.

Definition PrintToConsole : M (list token) :=
  fun v =>
    (out <- PrintToConsole_loop (S (Z.to_nat (size v))) 0 [] ;;
     ret (out ++ [Endl])) v.

(** The call returned a value. *)
Definition is_value {A : Type} (r : result A) : bool :=
  match r with Ok _ => true | _ => false end.

(** The object as the constructor leaves it: [size] is the number of
    elements of the allocation. *)
Definition allocated (v : VectorRam) : Prop :=
  size v = Z.of_nat (length (data v)) /\ size v <= SIZE_MAX.

(** * Properties *)

(** ** Arithmetic of the element type *)

Lemma normT_add_l (T : IntType) (a b : Z) :
  normT T (normT T a + b) = normT T (a + b).
Proof.
  unfold normT. destruct (signed T).
  - f_equal.
    replace ((a + 2 ^ (bits T - 1)) mod 2 ^ bits T - 2 ^ (bits T - 1) + b
             + 2 ^ (bits T - 1))
      with ((a + 2 ^ (bits T - 1)) mod 2 ^ bits T + b) by ring.
    rewrite Zplus_mod_idemp_l. f_equal. ring.
  - apply Zplus_mod_idemp_l.
Qed.

Lemma normT_add_r (T : IntType) (a b : Z) :
  normT T (a + normT T b) = normT T (a + b).
Proof.
  rewrite (Z.add_comm a), normT_add_l. f_equal. ring.
Qed.

Lemma normT_idem (T : IntType) (a : Z) : normT T (normT T a) = normT T a.
Proof.
  transitivity (normT T (normT T a + 0)).
  - f_equal. lia.
  - rewrite normT_add_l. f_equal. lia.
Qed.

Lemma addT_comm (T : IntType) (a b : Z) : addT T a b = addT T b a.
Proof. unfold addT. f_equal. ring. Qed.

Lemma addT_assoc (T : IntType) (a b c : Z) :
  addT T (addT T a b) c = addT T a (addT T b c).
Proof.
  unfold addT. rewrite normT_add_l, normT_add_r. f_equal. ring.
Qed.

Lemma Zsum_app (l1 l2 : list Z) : Zsum (l1 ++ l2) = Zsum l1 + Zsum l2.
Proof.
  unfold Zsum. induction l1 as [|x l1 IH]; simpl; [reflexivity | lia].
Qed.

Lemma Zsum_perm (l1 l2 : list Z) : Permutation l1 l2 -> Zsum l1 = Zsum l2.
Proof.
  unfold Zsum. induction 1; simpl; lia.
Qed.

(** Accumulating with [+=] computes the integer sum, reduced into [T] as
    soon as one element has been added. *)
Lemma fold_addT (T : IntType) (xs : list Z) (acc : Z) :
  fold_left (addT T) xs acc
  = match xs with [] => acc | _ => normT T (acc + Zsum xs) end.
Proof.
  revert acc. induction xs as [|x xs IH]; intro acc; [reflexivity|].
  simpl fold_left. rewrite IH. destruct xs as [|y ys].
  - unfold addT. replace (Zsum [x]) with x by (unfold Zsum; simpl; lia).
    reflexivity.
  - unfold addT. rewrite normT_add_l. f_equal.
    change (Zsum (x :: y :: ys)) with (x + Zsum (y :: ys)). ring.
Qed.

Lemma fold_addT_norm (T : IntType) (xs : list Z) :
  normT T (fold_left (addT T) xs 0) = normT T (Zsum xs).
Proof.
  rewrite fold_addT. destruct xs; [reflexivity|].
  rewrite normT_idem. reflexivity.
Qed.

(** ** Segments of the buffer *)

Lemma seg_split (v : VectorRam) (a k1 k2 : nat) :
  seg v a (k1 + k2) = seg v a k1 ++ seg v (a + k1) k2.
Proof.
  unfold seg. rewrite Nat.add_comm with (n := a), <- skipn_skipn.
  generalize (skipn a (data v)) as l. clear.
  induction k1 as [|k1 IH]; intro l; [reflexivity|].
  destruct l as [|x l]; simpl.
  - rewrite firstn_nil. reflexivity.
  - rewrite IH. reflexivity.
Qed.

Lemma seg_cons (v : VectorRam) (a k : nat) (x : Z) :
  nth_error (data v) a = Some x ->
  seg v a (S k) = x :: seg v (S a) k.
Proof.
  unfold seg. generalize (data v) as l. induction a as [|a IH]; intros l H.
  - destruct l; simpl in *; congruence.
  - destruct l as [|y l]; simpl in H; [discriminate|].
    simpl skipn. apply IH, H.
Qed.

Lemma seg_length (v : VectorRam) (a k : nat) :
  (a + k <= length (data v))%nat -> length (seg v a k) = k.
Proof.
  intro H. unfold seg. rewrite length_firstn, length_skipn. lia.
Qed.

(** ** Machine arithmetic without wrap-around *)

Lemma size_t_modulus : 2 ^ size_t_bits = 18446744073709551616.
Proof. reflexivity. Qed.

Lemma SIZE_MAX_value : SIZE_MAX = 18446744073709551615.
Proof. reflexivity. Qed.

Lemma unsigned_modulus : 2 ^ unsigned_bits = 4294967296.
Proof. reflexivity. Qed.

Lemma wrap_size_small (x : Z) : 0 <= x <= SIZE_MAX -> wrap_size x = x.
Proof.
  rewrite SIZE_MAX_value. intro H. unfold wrap_size.
  rewrite size_t_modulus. apply Z.mod_small. lia.
Qed.

Lemma wrap_uint_small (x : Z) : 0 <= x <= UINT_MAX -> wrap_uint x = x.
Proof.
  unfold UINT_MAX. rewrite unsigned_modulus. intro H. unfold wrap_uint.
  rewrite unsigned_modulus. apply Z.mod_small. lia.
Qed.

(** ** The summation loop *)

Ltac step_load v i :=
  unfold bind at 1, load at 1;
  let E := fresh "E" in
  destruct (nth_error (data v) (Z.to_nat i)) eqn:E.

(** The loop writes nothing. *)
Lemma sum_loop_frame (T : IntType) (fuel : nat) (i indEnd acc : Z)
  (v : VectorRam) :
  snd (sum_loop T fuel i indEnd acc v) = v.
Proof.
  revert i acc. induction fuel as [|fuel IH]; intros i acc; [reflexivity|].
  simpl. destruct (i <=? indEnd); [|reflexivity].
  step_load v i; [apply IH | reflexivity].
Qed.

(** An empty range: the loop leaves at its first test. *)
Lemma sum_loop_empty (T : IntType) (fuel : nat) (i indEnd acc : Z)
  (v : VectorRam) :
  indEnd < i -> sum_loop T (S fuel) i indEnd acc v = (Ok acc, v).
Proof.
  intro H. simpl. destruct (Z.leb_spec i indEnd); [lia | reflexivity].
Qed.

(** A range inside the buffer: the loop accumulates its [k] elements. *)
Lemma sum_loop_seg (T : IntType) (k : nat) :
  forall (fuel : nat) (i indEnd acc : Z) (v : VectorRam),
    0 <= i ->
    i + Z.of_nat k = indEnd + 1 ->
    indEnd < Z.of_nat (length (data v)) ->
    indEnd < SIZE_MAX ->
    (k < fuel)%nat ->
    sum_loop T fuel i indEnd acc v
    = (Ok (fold_left (addT T) (seg v (Z.to_nat i) k) acc), v).
Proof.
  induction k as [|k IH]; intros fuel i indEnd acc v Hi Hk Hlen Hmax Hfuel;
    (destruct fuel as [|fuel]; [lia|]).
  - apply sum_loop_empty. lia.
  - simpl sum_loop. destruct (Z.leb_spec i indEnd); [|lia].
    step_load v i.
    + rewrite wrap_size_small by lia.
      rewrite IH with (i := i + 1) by lia.
      rewrite (seg_cons v (Z.to_nat i) k z E).
      replace (Z.to_nat (i + 1)) with (S (Z.to_nat i)) by lia.
      reflexivity.
    + apply nth_error_None in E. lia.
Qed.

(** A range that starts inside the buffer and ends at or beyond its end:
    the loop reads past the last element. *)
Lemma sum_loop_runs_off (T : IntType) (fuel : nat) :
  forall (i indEnd acc : Z) (v : VectorRam),
    0 <= i <= Z.of_nat (length (data v)) ->
    Z.of_nat (length (data v)) <= indEnd ->
    indEnd <= SIZE_MAX ->
    (length (data v) - Z.to_nat i < fuel)%nat ->
    sum_loop T fuel i indEnd acc v = (Undefined OutOfBoundsAccess, v).
Proof.
  induction fuel as [|fuel IH]; intros i indEnd acc v Hi Hlen Hmax Hfuel;
    [lia|].
  simpl sum_loop. destruct (Z.leb_spec i indEnd); [|lia].
  step_load v i; [|reflexivity].
  assert (Z.to_nat i < length (data v))%nat
    by (apply nth_error_Some; congruence).
  rewrite wrap_size_small by lia.
  apply IH; lia.
Qed.

(** The fuel of [loop_fuel] is never used up on a buffer a [size_t] can
    index. *)
Lemma sum_loop_fuel_gen (T : IntType) (fuel : nat) :
  forall (i indEnd acc : Z) (v : VectorRam),
    Z.of_nat (length (data v)) <= SIZE_MAX ->
    0 <= i ->
    (length (data v) - Z.to_nat i < fuel)%nat ->
    fst (sum_loop T fuel i indEnd acc v) <> OutOfFuel.
Proof.
  induction fuel as [|fuel IH]; intros i indEnd acc v Hlen Hi Hfuel; [lia|].
  simpl sum_loop. destruct (i <=? indEnd); [|discriminate].
  step_load v i; [|discriminate].
  assert (Z.to_nat i < length (data v))%nat
    by (apply nth_error_Some; congruence).
  rewrite wrap_size_small by lia.
  apply IH; lia.
Qed.

Lemma sum_loop_fuel (T : IntType) (i indEnd acc : Z) (v : VectorRam) :
  Z.of_nat (length (data v)) <= SIZE_MAX ->
  0 <= i ->
  fst (sum_loop T (loop_fuel v) i indEnd acc v) <> OutOfFuel.
Proof.
  intros Hlen Hi. apply sum_loop_fuel_gen; [assumption..|].
  unfold loop_fuel. lia.
Qed.

(** ** The sequential sum *)

(** On a range inside the buffer the sequential sum returns the integer
    sum of the elements of the range, reduced into [T]. *)
Lemma Sum_range_ok (T : IntType) (indStart indEnd : Z) (v : VectorRam) :
  0 <= indStart <= indEnd ->
  indEnd < Z.of_nat (length (data v)) ->
  Z.of_nat (length (data v)) <= SIZE_MAX ->
  Sum_range T indStart indEnd v
  = (Ok (normT T (Zsum (seg v (Z.to_nat indStart)
                            (Z.to_nat (indEnd - indStart + 1))))), v).
Proof.
  intros Hr Hlen Hmax. unfold Sum_range.
  rewrite sum_loop_seg with (k := Z.to_nat (indEnd - indStart + 1));
    [|unfold loop_fuel; lia..].
  rewrite fold_addT.
  destruct (seg v (Z.to_nat indStart) (Z.to_nat (indEnd - indStart + 1)))
    as [|x xs] eqn:E; [|reflexivity].
  apply (f_equal (@length Z)) in E. rewrite seg_length in E by lia.
  simpl in E. lia.
Qed.

(** ** Schedules *)

Lemma valid_schedule_perm (n : nat) (sched : list nat) :
  valid_schedule n sched = true -> Permutation (seq 0 n) sched.
Proof.
  unfold valid_schedule. intro H.
  apply andb_prop in H. destruct H as [Hlen Hall].
  apply Nat.eqb_eq in Hlen.
  apply NoDup_Permutation_bis.
  - apply seq_NoDup.
  - rewrite length_seq. lia.
  - intros k Hk. rewrite forallb_forall in Hall.
    specialize (Hall k Hk). apply existsb_exists in Hall.
    destruct Hall as [j [Hj Heq]]. apply Nat.eqb_eq in Heq. subst j.
    exact Hj.
Qed.

Lemma nth_all (locals : list Z) :
  map (fun k => nth k locals 0) (seq 0 (length locals)) = locals.
Proof.
  induction locals as [|x xs IH]; [reflexivity|].
  simpl. f_equal. rewrite <- seq_shift, map_map. exact IH.
Qed.

Lemma merge_as_fold (T : IntType) (sched : list nat) (locals : list Z) :
  merge T sched locals
  = fold_left (addT T) (map (fun k => nth k locals 0) sched) 0.
Proof.
  unfold merge. generalize 0 at 2 4 as acc.
  induction sched as [|k sched IH]; intro acc; [reflexivity|].
  simpl. apply IH.
Qed.

(** Whatever the order in which the workers take the mutex, the shared
    total ends as the integer sum of the local sums, reduced into [T]. *)
Lemma merge_any_order (T : IntType) (sched : list nat) (locals : list Z) :
  valid_schedule (length locals) sched = true ->
  locals <> [] ->
  merge T sched locals = normT T (Zsum locals).
Proof.
  intros Hs Hne. apply valid_schedule_perm in Hs.
  assert (Hp : Permutation locals (map (fun k => nth k locals 0) sched)).
  { rewrite <- (nth_all locals) at 1. apply Permutation_map, Hs. }
  rewrite merge_as_fold, fold_addT.
  destruct (map (fun k => nth k locals 0) sched) as [|x xs] eqn:E.
  - apply Permutation_sym, Permutation_nil in Hp. contradiction.
  - rewrite (Zsum_perm _ _ Hp). f_equal.
Qed.

Lemma seq_from (a k : nat) :
  seq a k = map (fun j => (a + j)%nat) (seq 0 k).
Proof.
  induction a as [|a IH].
  - simpl. symmetry. apply map_id.
  - rewrite <- seq_shift, IH, map_map. reflexivity.
Qed.

(** ** The launching loop *)

Section Plan.

Variables indStart indEnd threadsNum thBlockSize : Z.

Hypothesis range_ok : 0 <= indStart <= indEnd.
Hypothesis end_ok : indEnd < SIZE_MAX.
Hypothesis threads_ok : 1 <= threadsNum <= UINT_MAX.
Hypothesis block_nonneg : 0 <= thBlockSize.
Hypothesis blocks_fit : threadsNum * thBlockSize <= indEnd - indStart + 1.
(** No block of size zero starts at index zero. *)
Hypothesis no_wrap : 1 <= indStart \/ 1 <= thBlockSize.

Lemma block_bounds (i : Z) :
  0 <= i < threadsNum ->
  0 <= i * thBlockSize
  /\ (i + 1) * thBlockSize = i * thBlockSize + thBlockSize
  /\ indStart + (i + 1) * thBlockSize <= indEnd + 1.
Proof.
  intro Hi. split; [|split].
  - apply Z.mul_nonneg_nonneg; lia.
  - ring.
  - assert ((i + 1) * thBlockSize <= threadsNum * thBlockSize)
      by (apply Z.mul_le_mono_nonneg_r; lia).
    lia.
Qed.

Lemma thIndStart_of_exact (i : Z) :
  0 <= i < threadsNum ->
  thIndStart_of indStart thBlockSize i = indStart + i * thBlockSize.
Proof.
  intro Hi. destruct (block_bounds i Hi) as (H0 & H1 & H2).
  unfold thIndStart_of.
  rewrite (wrap_size_small (i * thBlockSize)) by lia.
  apply wrap_size_small. lia.
Qed.

Lemma thIndEnd_of_exact (i : Z) :
  0 <= i < threadsNum ->
  thIndEnd_of (indStart + i * thBlockSize) thBlockSize
  = indStart + (i + 1) * thBlockSize - 1.
Proof.
  intro Hi. destruct (block_bounds i Hi) as (H0 & H1 & H2).
  unfold thIndEnd_of.
  rewrite (wrap_size_small (indStart + i * thBlockSize + thBlockSize))
    by lia.
  rewrite wrap_size_small by lia. lia.
Qed.

(** The loop hands out the blocks of [block_of] to all workers but the
    last, and the rest of the range to the last. *)
Lemma launch_spec (k : nat) :
  forall i : Z,
    0 <= i ->
    i + Z.of_nat (S k) = threadsNum ->
    launch (S k) i indStart indEnd thBlockSize threadsNum
    = map (block_of indStart thBlockSize) (map Z.of_nat (seq (Z.to_nat i) k))
      ++ [(indStart + (threadsNum - 1) * thBlockSize, indEnd)].
Proof.
  induction k as [|k IH]; intros i Hi Hk.
  - simpl. rewrite thIndStart_of_exact by lia.
    rewrite wrap_uint_small by lia.
    replace (threadsNum - 1) with i by lia.
    rewrite Z.eqb_refl. reflexivity.
  - change (launch (S (S k)) i indStart indEnd thBlockSize threadsNum)
      with (let thIndStart := thIndStart_of indStart thBlockSize i in
            (thIndStart,
             if i =? wrap_uint (threadsNum - 1) then indEnd
             else thIndEnd_of thIndStart thBlockSize)
            :: launch (S k) (wrap_size (i + 1)) indStart indEnd
                 thBlockSize threadsNum).
    cbv zeta. rewrite thIndStart_of_exact by lia.
    rewrite wrap_uint_small by lia.
    destruct (Z.eqb_spec i (threadsNum - 1)); [lia|].
    rewrite thIndEnd_of_exact by lia.
    assert (Hmax : UINT_MAX < SIZE_MAX) by reflexivity.
    rewrite wrap_size_small by lia.
    rewrite IH by lia.
    replace (Z.to_nat (i + 1)) with (S (Z.to_nat i)) by lia.
    simpl seq. simpl map. rewrite Z2Nat.id by lia. reflexivity.
Qed.

(** The local sums of such a list of blocks, from the block [i0] on:
    together they amount to the sum of the buffer from the start of the
    block [i0] to the end of the range. *)
Lemma run_workers_chunks (T : IntType) (v : VectorRam) (m : nat) :
  forall i0 : nat,
    Z.of_nat (i0 + m) = threadsNum - 1 ->
    indEnd < Z.of_nat (length (data v)) ->
    exists locals : list Z,
      run_workers T
        (map (block_of indStart thBlockSize) (map Z.of_nat (seq i0 m))
         ++ [(indStart + (threadsNum - 1) * thBlockSize, indEnd)]) v
      = (Ok locals, v)
      /\ length locals = S m
      /\ normT T (Zsum locals)
         = normT T (Zsum (seg v
             (Z.to_nat (indStart + Z.of_nat i0 * thBlockSize))
             (Z.to_nat (indEnd + 1
                        - (indStart + Z.of_nat i0 * thBlockSize))))).
Proof.
  induction m as [|m IH]; intros i0 Hm Hlen.
  - destruct (block_bounds (Z.of_nat i0)) as (H0 & H1 & H2); [lia|].
    replace (threadsNum - 1) with (Z.of_nat i0) by lia.
    eexists. simpl. unfold bind, thread_sum_local.
    rewrite sum_loop_seg
      with (k := Z.to_nat (indEnd + 1
                           - (indStart + Z.of_nat i0 * thBlockSize)));
      [|unfold loop_fuel; lia..].
    simpl. split; [reflexivity|]. split; [reflexivity|].
    unfold Zsum at 1. simpl. rewrite Z.add_0_r. apply fold_addT_norm.
  - destruct (block_bounds (Z.of_nat i0)) as (H0 & H1 & H2); [lia|].
    destruct (IH (S i0)) as (ls & Hrun & Hls & Hsum); [lia | assumption |].
    eexists. simpl seq. simpl map. simpl app. simpl run_workers.
    unfold bind at 1, thread_sum_local at 1.
    rewrite sum_loop_seg with (k := Z.to_nat thBlockSize);
      [|unfold loop_fuel; lia..].
    unfold bind at 1. rewrite Hrun. unfold ret.
    split; [reflexivity|]. split; [simpl; lia|].
    change (Zsum (?x :: ls)) with (x + Zsum ls).
    rewrite <- normT_add_r, Hsum, normT_add_r.
    rewrite <- normT_add_l, fold_addT_norm, normT_add_l.
    rewrite <- Zsum_app. f_equal. f_equal.
    replace (Z.to_nat (indEnd + 1
                       - (indStart + Z.of_nat i0 * thBlockSize)))
      with (Z.to_nat thBlockSize
            + Z.to_nat (indEnd + 1
                        - (indStart + Z.of_nat (S i0) * thBlockSize)))%nat
      by lia.
    rewrite seg_split. f_equal. f_equal. lia.
Qed.

(** The indices of such a list of blocks, from the block [i0] on, one
    block after the other: the indices from the start of the block [i0]
    to the end of the range, each once and in increasing order. *)
Lemma indices_chunks (m : nat) :
  forall i0 : nat,
    Z.of_nat (i0 + m) = threadsNum - 1 ->
    concat (map indices
      (map (block_of indStart thBlockSize) (map Z.of_nat (seq i0 m))
       ++ [(indStart + (threadsNum - 1) * thBlockSize, indEnd)]))
    = indices (indStart + Z.of_nat i0 * thBlockSize, indEnd).
Proof.
  induction m as [|m IH]; intros i0 Hm.
  - replace (threadsNum - 1) with (Z.of_nat i0) by lia.
    simpl. apply app_nil_r.
  - destruct (block_bounds (Z.of_nat i0)) as (H0 & H1 & H2); [lia|].
    simpl seq. simpl map. simpl app. simpl concat.
    rewrite (IH (S i0)) by lia.
    unfold indices, block_of, fst, snd.
    replace (Z.to_nat (indEnd - (indStart + Z.of_nat i0 * thBlockSize) + 1))
      with (Z.to_nat thBlockSize
            + Z.to_nat (indEnd - (indStart + Z.of_nat (S i0) * thBlockSize)
                        + 1))%nat by lia.
    rewrite seq_app, map_app. f_equal.
    + f_equal. f_equal. lia.
    + rewrite (seq_from (0 + Z.to_nat thBlockSize)), map_map.
      apply map_ext. intro j. lia.
Qed.

End Plan.


(** ** The plan of a call *)

Section ValidCall.

Variables indStart indEnd threadsNum : Z.

Hypothesis range_ok : 0 <= indStart <= indEnd.
Hypothesis end_ok : indEnd < SIZE_MAX.
Hypothesis threads_ok : 1 <= threadsNum <= UINT_MAX.

Lemma blockSize_of_exact :
  blockSize_of indStart indEnd = indEnd - indStart + 1.
Proof.
  unfold blockSize_of.
  rewrite (wrap_size_small (indEnd - indStart)) by lia.
  apply wrap_size_small. lia.
Qed.

Lemma thBlockSize_bounds :
  let b := (indEnd - indStart + 1) / threadsNum in
  0 <= b /\ threadsNum * b <= indEnd - indStart + 1
  /\ (threadsNum <= indEnd - indStart + 1 -> 1 <= b).
Proof.
  cbv zeta. split; [|split].
  - apply Z.div_pos; lia.
  - apply Z.mul_div_le. lia.
  - intro H. apply Z.div_le_lower_bound; lia.
Qed.

(** No block of size zero starts at index zero. *)
Hypothesis no_wrap : 1 <= indStart \/ threadsNum <= indEnd - indStart + 1.

(** Then the plan of the code is the plan of the specification. *)
Lemma partition_plan_spec :
  partition_plan indStart indEnd threadsNum
  = spec_plan indStart indEnd threadsNum.
Proof.
  destruct thBlockSize_bounds as (Hb & Hnb & H1).
  unfold partition_plan, spec_plan, Zrange. rewrite blockSize_of_exact.
  replace (Z.to_nat threadsNum) with (S (Z.to_nat (threadsNum - 1))) by lia.
  rewrite launch_spec; [reflexivity|lia..].
Qed.

(** ... and its ranges, taken in the order of the workers, go through the
    indices of the input range once each, in increasing order: the ranges
    are contiguous, they do not overlap, and their union is the input
    range. *)
Lemma partition_plan_covers :
  concat (map indices (partition_plan indStart indEnd threadsNum))
  = indices (indStart, indEnd).
Proof.
  destruct thBlockSize_bounds as (Hb & Hnb & H1).
  unfold partition_plan. rewrite blockSize_of_exact.
  replace (Z.to_nat threadsNum) with (S (Z.to_nat (threadsNum - 1))) by lia.
  rewrite launch_spec by lia.
  change (Z.to_nat 0) with 0%nat.
  rewrite indices_chunks by lia.
  f_equal. f_equal. simpl. lia.
Qed.

(** ... and the parallel sum returns what the sequential sum returns,
    whatever the order in which the workers take the mutex. *)
Lemma Sum_range_par_ok (T : IntType) (sched : list nat) (v : VectorRam) :
  indEnd < Z.of_nat (length (data v)) ->
  valid_schedule (Z.to_nat threadsNum) sched = true ->
  Sum_range_par T sched indStart indEnd threadsNum v
  = (Ok (normT T (Zsum (seg v (Z.to_nat indStart)
                            (Z.to_nat (indEnd - indStart + 1))))), v).
Proof.
  intros Hlen Hs. destruct thBlockSize_bounds as (Hb & Hnb & H1).
  unfold Sum_range_par. destruct (Z.eqb_spec threadsNum 0); [lia|].
  unfold partition_plan. rewrite blockSize_of_exact.
  replace (Z.to_nat threadsNum) with (S (Z.to_nat (threadsNum - 1)))
    in * by lia.
  rewrite launch_spec by lia.
  change (Z.to_nat 0) with 0%nat.
  destruct (run_workers_chunks indStart indEnd threadsNum
              ((indEnd - indStart + 1) / threadsNum)
              ltac:(lia) ltac:(lia) ltac:(lia) ltac:(lia) ltac:(lia)
              ltac:(lia) T v (Z.to_nat (threadsNum - 1)) 0%nat)
    as (locals & Hrun & Hn & Hsum); [lia | assumption |].
  unfold bind. rewrite Hrun. unfold ret. f_equal. f_equal.
  rewrite merge_any_order.
  - rewrite Hsum. f_equal. f_equal. f_equal; lia.
  - rewrite Hn. exact Hs.
  - intro E. rewrite E in Hn. discriminate.
Qed.

End ValidCall.

(** ** A block of size zero at index zero *)

Lemma launch_S (k : nat) (i indStart indEnd thBlockSize threadsNum : Z) :
  launch (S k) i indStart indEnd thBlockSize threadsNum
  = (thIndStart_of indStart thBlockSize i,
     if i =? wrap_uint (threadsNum - 1) then indEnd
     else thIndEnd_of (thIndStart_of indStart thBlockSize i) thBlockSize)
    :: launch k (wrap_size (i + 1)) indStart indEnd thBlockSize threadsNum.
Proof. reflexivity. Qed.

(** When the range starts at index zero and has fewer elements than there
    are workers, the first worker is handed the range [0, SIZE_MAX] and
    reads past the end of the buffer. *)
Lemma Sum_range_par_wraps (T : IntType) (sched : list nat)
  (indEnd threadsNum : Z) (v : VectorRam) :
  0 <= indEnd < Z.of_nat (length (data v)) ->
  Z.of_nat (length (data v)) <= SIZE_MAX ->
  indEnd + 1 < threadsNum <= UINT_MAX ->
  hd (0, 0) (partition_plan 0 indEnd threadsNum) = (0, SIZE_MAX)
  /\ Sum_range_par T sched 0 indEnd threadsNum v
     = (Undefined OutOfBoundsAccess, v).
Proof.
  intros He Hlen Hn.
  assert (Hplan : partition_plan 0 indEnd threadsNum
                  = (0, SIZE_MAX)
                      :: launch (Z.to_nat (threadsNum - 1)) (wrap_size (0 + 1))
                           0 indEnd 0 threadsNum).
  { unfold partition_plan. rewrite blockSize_of_exact by lia.
    replace (indEnd - 0 + 1) with (indEnd + 1) by lia.
    rewrite Z.div_small by lia.
    replace (Z.to_nat threadsNum) with (S (Z.to_nat (threadsNum - 1)))
      by lia.
    rewrite launch_S, wrap_uint_small by lia.
    destruct (Z.eqb_spec 0 (threadsNum - 1)); [lia|].
    f_equal. }
  split; [rewrite Hplan; reflexivity|].
  unfold Sum_range_par. destruct (Z.eqb_spec threadsNum 0); [lia|].
  rewrite Hplan. simpl run_workers.
  unfold bind at 1 2, thread_sum_local at 1.
  rewrite sum_loop_runs_off; [reflexivity | unfold loop_fuel; lia..].
Qed.

(** ** Frame lemmas *)

Lemma run_workers_frame (T : IntType) (plan : list (Z * Z)) (v : VectorRam) :
  snd (run_workers T plan v) = v.
Proof.
  induction plan as [|[a b] plan IH]; [reflexivity|].
  simpl. unfold bind at 1, thread_sum_local.
  pose proof (sum_loop_frame T (loop_fuel v) a b 0 v) as Hl.
  destruct (sum_loop T (loop_fuel v) a b 0 v) as [[l| | |] v1];
    simpl in Hl; subst v1; try reflexivity.
  unfold bind. destruct (run_workers T plan v) as [[ls| | |] v2];
    simpl in IH; subst v2; reflexivity.
Qed.

Lemma Sum_range_frame (T : IntType) (indStart indEnd : Z) (v : VectorRam) :
  snd (Sum_range T indStart indEnd v) = v.
Proof. apply sum_loop_frame. Qed.

Lemma Sum_range_par_frame (T : IntType) (sched : list nat)
  (indStart indEnd threadsNum : Z) (v : VectorRam) :
  snd (Sum_range_par T sched indStart indEnd threadsNum v) = v.
Proof.
  unfold Sum_range_par. destruct (threadsNum =? 0); [reflexivity|].
  unfold bind.
  pose proof (run_workers_frame T
                (partition_plan indStart indEnd threadsNum) v) as H.
  destruct (run_workers T (partition_plan indStart indEnd threadsNum) v)
    as [[ls| | |] v1]; simpl in H; subst v1; reflexivity.
Qed.

(** A timed call ends as the call it wraps, with the elapsed time put
    next to the value. *)
Lemma timed_eq (c : M Z) (t : Z) (v : VectorRam) :
  (r <- c ;; ret (mkFuncResult r t)) v
  = (map_result (fun r => mkFuncResult r t) (fst (c v)), snd (c v)).
Proof.
  unfold bind, ret. destruct (c v) as [[r| | |] v1]; reflexivity.
Qed.

Lemma map_result_result (t : Z) (r : result Z) :
  map_result _result (map_result (fun x => mkFuncResult x t) r) = r.
Proof. destruct r; reflexivity. Qed.


(** ** Values that fit the element type *)

Lemma normT_small (T : IntType) (x : Z) :
  0 <= x < 2 ^ (bits T - 1) -> normT T x = x.
Proof.
  intro H.
  assert (Hb : 0 <= bits T - 1).
  { destruct (Z.le_gt_cases 0 (bits T - 1)) as [|Hneg]; [assumption|].
    rewrite Z.pow_neg_r in H by assumption. lia. }
  assert (Hp : 2 ^ bits T = 2 * 2 ^ (bits T - 1)).
  { rewrite <- Z.pow_succ_r by assumption. f_equal. lia. }
  unfold normT. destruct (signed T).
  - rewrite Z.mod_small by lia. lia.
  - apply Z.mod_small. lia.
Qed.

(** ** The buffer of the scenario

    [ones8] is what the constructor followed by [InitByVal(1)] builds. *)
Lemma ones8_built (T : IntType) (al : allocator) (junk : nat -> Z) :
  8 * sizeofT T <= array_limit al ->
  provides al (8 * sizeofT T) = true ->
  exists v : VectorRam,
    VectorRam_new T al 8 junk = Ok v /\ InitByVal 1 v = (Ok tt, ones8).
Proof.
  intros Hlim Hprov. unfold VectorRam_new. cbv zeta.
  destruct (Z.ltb_spec (array_limit al) (8 * sizeofT T)); [lia|].
  rewrite Hprov. eexists. split; reflexivity.
Qed.

(** * The claims *)

(** C1, at the input where the code departs from it: for the range [0,0]
    of a one-element buffer and two workers, the launching loop hands the
    first worker the range [0, SIZE_MAX] (the end index [0 + 0 - 1] has
    wrapped around), where the plan of the specification has the empty
    range [0,-1]; the range of the first worker contains the index 0 of
    the second. *)
Theorem C1_plan_wraps_at_index_zero :
  partition_plan 0 0 2 = [(0, SIZE_MAX); (0, 0)]
  /\ spec_plan 0 0 2 = [(0, -1); (0, 0)]
  /\ partition_plan 0 0 2 <> spec_plan 0 0 2
  /\ indices (0, -1) = []
  /\ in_range 0 (0, SIZE_MAX) = true
  /\ in_range 0 (0, 0) = true.
Proof.
  repeat apply conj; try reflexivity.
  vm_compute. discriminate.
Qed.

(** C2, at the inputs where the code departs from it: on a buffer with
    fewer elements than there are workers, the sequential sum over the
    full range returns the sum of the elements while the parallel sum
    over the full range reads past the end of the buffer, whatever the
    order in which the workers take the mutex. *)
Theorem C2_parallel_differs_when_workers_exceed_length
  (T : IntType) (sched : list nat) (threadsNum : Z) (v : VectorRam) :
  size v = Z.of_nat (length (data v)) ->
  1 <= size v <= SIZE_MAX ->
  size v < threadsNum <= UINT_MAX ->
  Sum_all T v = (Ok (normT T (Zsum (data v))), v)
  /\ Sum_all_par T sched threadsNum v = (Undefined OutOfBoundsAccess, v)
  /\ Sum_all_par T sched threadsNum v <> Sum_all T v.
Proof.
  intros Hsize Hs Hn.
  assert (H1 : Sum_all T v = (Ok (normT T (Zsum (data v))), v)).
  { unfold Sum_all. rewrite wrap_size_small by lia.
    rewrite Sum_range_ok by lia.
    unfold seg. simpl skipn.
    rewrite firstn_all2 by lia. reflexivity. }
  assert (H2 : Sum_all_par T sched threadsNum v
               = (Undefined OutOfBoundsAccess, v)).
  { unfold Sum_all_par. rewrite wrap_size_small by lia.
    apply Sum_range_par_wraps; lia. }
  split; [exact H1|]. split; [exact H2|].
  rewrite H1, H2. discriminate.
Qed.

Lemma C2_witness :
  Sum_all int32 (mkVectorRam [5] 1) = (Ok 5, mkVectorRam [5] 1)
  /\ Sum_all_par int32 [0; 1]%nat 2 (mkVectorRam [5] 1)
     = (Undefined OutOfBoundsAccess, mkVectorRam [5] 1).
Proof.
  destruct (C2_parallel_differs_when_workers_exceed_length
              int32 [0; 1]%nat 2 (mkVectorRam [5] 1))
    as (H1 & H2 & _).
  - reflexivity.
  - vm_compute. split; discriminate.
  - vm_compute. split; [reflexivity | discriminate].
  - split; [exact H1 | exact H2].
Defined.

(** C3, at the input where the code departs from it: with a thread count
    of zero the parallel sum, timed or not, divides by zero, which is
    undefined behaviour; no error is raised. *)
Theorem C3_zero_threads_divides_by_zero
  (T : IntType) (c : clock) (sched : list nat) (indStart indEnd : Z)
  (v : VectorRam) :
  Sum_range_par T sched indStart indEnd 0 v = (Undefined DivisionByZero, v)
  /\ Sum_all_par T sched 0 v = (Undefined DivisionByZero, v)
  /\ fst (SumFR_range_par T c sched indStart indEnd 0 v)
     = Undefined DivisionByZero
  /\ fst (Sum_range_par T sched indStart indEnd 0 v) <> Raise InvalidArgument.
Proof.
  repeat apply conj; try reflexivity. discriminate.
Qed.

(** C4, at its own input, where the code departs from it: on a buffer of
    length 1 with 8 workers over the full range, each of the first seven
    workers is handed the range [0, SIZE_MAX], and the call reads past
    the end of the buffer instead of returning the element. *)
Theorem C4_one_element_eight_workers
  (T : IntType) (sched : list nat) (x : Z) :
  partition_plan 0 0 8
  = [(0, SIZE_MAX); (0, SIZE_MAX); (0, SIZE_MAX); (0, SIZE_MAX);
     (0, SIZE_MAX); (0, SIZE_MAX); (0, SIZE_MAX); (0, 0)]
  /\ thread_sum_local T 0 SIZE_MAX (mkVectorRam [x] 1)
     = (Undefined OutOfBoundsAccess, mkVectorRam [x] 1)
  /\ Sum_all_par T sched 8 (mkVectorRam [x] 1)
     = (Undefined OutOfBoundsAccess, mkVectorRam [x] 1)
  /\ Sum_all T (mkVectorRam [x] 1) = (Ok (addT T 0 x), mkVectorRam [x] 1).
Proof.
  repeat apply conj; reflexivity.
Qed.

Lemma addT_const (T : IntType) (a b c : Z) :
  a + b = c -> 0 <= c < 2 ^ (bits T - 1) -> addT T a b = c.
Proof.
  intros E H. unfold addT. rewrite E. apply normT_small, H.
Qed.

Ltac is_literal a :=
  match a with
  | Z0 => idtac
  | Zpos _ => idtac
  | Zneg _ => idtac
  end.

Ltac addT_consts T :=
  repeat match goal with
    | |- context [addT T ?a ?b] =>
        is_literal a; is_literal b;
        let c := eval vm_compute in (a + b) in
        rewrite (addT_const T a b c) by (first [reflexivity | lia])
    end.

(** C5, the claim as stated fails: with 8 elements and 3 workers the block
    size is floor(8/3) = 2, so the plan is not [0,2], [3,5], [6,7] and the
    local sums are not 3, 3, 2. *)
Lemma C5_counterexample :
  ~ (partition_plan 0 7 3 = [(0, 2); (3, 5); (6, 7)]
     /\ run_workers int32 (partition_plan 0 7 3) ones8
        = (Ok [3; 3; 2], ones8)
     /\ Sum_all_par int32 [0; 1; 2]%nat 3 ones8 = (Ok 8, ones8)).
Proof.
  intros [H _]. vm_compute in H. discriminate.
Qed.

(** C5, amended: for a buffer of length 8 with every element equal to 1
    and 3 workers over the full range [0,7], the plan is [0,1], [2,3],
    [4,7] (of lengths 2, 2, 4), the local sums of the three workers are 2,
    2 and 4, and the merged total is 8, in whatever order the workers take
    the mutex (for an element type that can hold 8). *)
Theorem C5_eight_ones_three_workers (T : IntType) (sched : list nat) :
  8 < 2 ^ (bits T - 1) ->
  valid_schedule 3 sched = true ->
  partition_plan 0 7 3 = [(0, 1); (2, 3); (4, 7)]
  /\ map (fun r => length (indices r)) (partition_plan 0 7 3)
     = [2; 2; 4]%nat
  /\ run_workers T (partition_plan 0 7 3) ones8 = (Ok [2; 2; 4], ones8)
  /\ Sum_all_par T sched 3 ones8 = (Ok 8, ones8)
  /\ Sum_all T ones8 = (Ok 8, ones8).
Proof.
  intros HT Hs.
  split; [reflexivity|]. split; [reflexivity|]. split; [|split].
  - change (partition_plan 0 7 3) with [(0, 1); (2, 3); (4, 7)].
    cbv -[addT]. addT_consts T. reflexivity.
  - unfold Sum_all_par.
    change (wrap_size (size ones8 - 1)) with 7.
    rewrite (Sum_range_par_ok 0 7 3 ltac:(lia) ltac:(reflexivity)
               ltac:(vm_compute; split; discriminate) ltac:(right; lia)
               T sched ones8 ltac:(reflexivity) Hs).
    change (Zsum (seg ones8 (Z.to_nat 0) (Z.to_nat (7 - 0 + 1)))) with 8.
    rewrite normT_small by lia. reflexivity.
  - cbv -[addT]. addT_consts T. reflexivity.
Qed.

Lemma C5_witness :
  run_workers int32 (partition_plan 0 7 3) ones8 = (Ok [2; 2; 4], ones8)
  /\ Sum_all_par int32 [2; 0; 1]%nat 3 ones8 = (Ok 8, ones8).
Proof.
  destruct (C5_eight_ones_three_workers int32 [2; 0; 1]%nat)
    as (_ & _ & H3 & H4 & _).
  - vm_compute. reflexivity.
  - reflexivity.
  - split; [exact H3 | exact H4].
Defined.

(** C6: the timing wrapper does not alter the result of the call it
    wraps.  For every buffer, range, thread count, schedule and pair of
    clock readings, each of the four [SumFR] overloads ends as the [Sum]
    overload on the same arguments ends, and when that returns a value the
    [_result] field of the [FuncResult] is this value. *)
Theorem C6_SumFR_result_is_Sum
  (T : IntType) (c : clock) (sched : list nat)
  (indStart indEnd threadsNum : Z) (v : VectorRam) :
  map_result _result (fst (SumFR_range T c indStart indEnd v))
  = fst (Sum_range T indStart indEnd v)
  /\ map_result _result
       (fst (SumFR_range_par T c sched indStart indEnd threadsNum v))
     = fst (Sum_range_par T sched indStart indEnd threadsNum v)
  /\ map_result _result (fst (SumFR_all T c v)) = fst (Sum_all T v)
  /\ map_result _result (fst (SumFR_all_par T c sched threadsNum v))
     = fst (Sum_all_par T sched threadsNum v).
Proof.
  unfold SumFR_all, SumFR_all_par, SumFR_range, SumFR_range_par,
    Sum_all, Sum_all_par.
  rewrite !timed_eq. cbn [fst]. rewrite !map_result_result.
  repeat apply conj; reflexivity.
Qed.

(** C7, the claim as stated fails: creating a buffer of length 0 does not
    fail with InvalidArgument; where [new] can allocate, it returns an
    empty buffer. *)
Lemma C7_counterexample :
  VectorRam_new int32 small_allocator 0 (fun _ => 0)
  = Ok (mkVectorRam [] 0)
  /\ VectorRam_new int32 small_allocator 0 (fun _ => 0)
     <> Raise InvalidArgument.
Proof.
  split; [reflexivity | discriminate].
Qed.

(** C7, amended: buffer creation never fails with InvalidArgument, for no
    requested length n, 0 included.  When [new T[n]] can allocate (the
    byte size is within the limit of the implementation and the
    allocation function provides the block), creation succeeds with
    storage for exactly n elements, an empty buffer for n = 0; whenever
    creation succeeds the buffer has exactly n elements.  Otherwise
    creation fails with the exception of [new]: [bad_array_new_length]
    above the limit, [bad_alloc] when the block is not provided. *)
Theorem C7_new_allocates_exactly
  (T : IntType) (al : allocator) (sz : Z) (junk : nat -> Z) :
  0 <= sz <= SIZE_MAX ->
  let bytes := sz * sizeofT T in
  VectorRam_new T al sz junk <> Raise InvalidArgument
  /\ (forall v : VectorRam,
        VectorRam_new T al sz junk = Ok v ->
        size v = sz /\ Z.of_nat (length (data v)) = sz)
  /\ (bytes <= array_limit al ->
      provides al bytes = true ->
      exists v : VectorRam,
        VectorRam_new T al sz junk = Ok v
        /\ size v = sz
        /\ Z.of_nat (length (data v)) = sz
        /\ (sz = 0 -> data v = []))
  /\ (array_limit al < bytes ->
      VectorRam_new T al sz junk = Raise BadArrayNewLength)
  /\ (bytes <= array_limit al ->
      provides al bytes = false ->
      VectorRam_new T al sz junk = Raise BadAlloc).
Proof.
  intros H bytes. unfold VectorRam_new. cbv zeta. fold bytes.
  assert (Hlen : Z.of_nat
                   (length (map (fun k => normT T (junk k))
                                (seq 0 (Z.to_nat sz)))) = sz)
    by (rewrite length_map, length_seq; lia).
  destruct (Z.ltb_spec (array_limit al) bytes) as [Hlim | Hlim];
    [| destruct (provides al bytes) eqn:Hprov].
  - split; [discriminate|]. split; [discriminate|].
    split; [lia|]. split; [reflexivity|]. lia.
  - split; [discriminate|]. split.
    { intros v Hv. inversion Hv. cbn [size data]. split; [reflexivity|].
      exact Hlen. }
    split.
    { intros _ _. eexists. split; [reflexivity|]. cbn [size data].
      split; [reflexivity|]. split; [exact Hlen|].
      intro E. rewrite E. reflexivity. }
    split; [lia | discriminate].
  - split; [discriminate|]. split; [discriminate|].
    split; [discriminate|]. split; [lia | reflexivity].
Qed.

Lemma C7_witness :
  (exists v : VectorRam,
     VectorRam_new uint8 small_allocator 3 (fun k => Z.of_nat k + 254)
     = Ok v
     /\ size v = 3
     /\ Z.of_nat (length (data v)) = 3
     /\ (3 = 0 -> data v = []))
  /\ VectorRam_new int32 small_allocator (2 ^ 62) (fun _ => 0)
     = Raise BadArrayNewLength
  /\ VectorRam_new int32 small_allocator (2 ^ 29) (fun _ => 0)
     = Raise BadAlloc.
Proof.
  split; [|split].
  - apply (C7_new_allocates_exactly uint8 small_allocator 3
             (fun k => Z.of_nat k + 254));
      vm_compute; try split; try discriminate; reflexivity.
  - apply (C7_new_allocates_exactly int32 small_allocator (2 ^ 62)
             (fun _ => 0));
      vm_compute; try split; try discriminate; reflexivity.
  - apply (C7_new_allocates_exactly int32 small_allocator (2 ^ 29)
             (fun _ => 0));
      vm_compute; try split; try discriminate; reflexivity.
Defined.

(** C8: every reduction leaves the buffer as it was.  For every buffer,
    range, thread count, schedule and pair of clock readings, the object
    after each of the eight [Sum] and [SumFR] overloads is the object
    before it, so every element has the value it had. *)
Theorem C8_reductions_leave_buffer_unchanged
  (T : IntType) (c : clock) (sched : list nat)
  (indStart indEnd threadsNum : Z) (v : VectorRam) :
  snd (Sum_range T indStart indEnd v) = v
  /\ snd (Sum_all T v) = v
  /\ snd (Sum_range_par T sched indStart indEnd threadsNum v) = v
  /\ snd (Sum_all_par T sched threadsNum v) = v
  /\ snd (SumFR_range T c indStart indEnd v) = v
  /\ snd (SumFR_all T c v) = v
  /\ snd (SumFR_range_par T c sched indStart indEnd threadsNum v) = v
  /\ snd (SumFR_all_par T c sched threadsNum v) = v.
Proof.
  unfold SumFR_all, SumFR_all_par, SumFR_range, SumFR_range_par,
    Sum_all, Sum_all_par.
  rewrite !timed_eq. cbn [snd].
  repeat apply conj;
    first [apply Sum_range_frame | apply Sum_range_par_frame].
Qed.

(** C9: a block of size zero handed to a worker that is not the last is
    safe only when it starts at an index of at least 1.  Then the end
    index is [thIndStart - 1], the loop of the worker leaves at its first
    test on every buffer, and the local sum, 0, leaves the total as it is.
    At [thIndStart = 0] the subtraction wraps around to [SIZE_MAX], and
    the loop of the worker does iterate: on every buffer it reads past
    the end. *)
Theorem C9_zero_block_safe_from_index_one
  (T : IntType) (thIndStart : Z) (v : VectorRam) :
  1 <= thIndStart <= SIZE_MAX ->
  (forall i : Z, thIndStart_of thIndStart 0 i = thIndStart)
  /\ thIndEnd_of thIndStart 0 = thIndStart - 1
  /\ (forall (fuel : nat) (acc : Z),
        sum_loop T (S fuel) thIndStart (thIndEnd_of thIndStart 0) acc v
        = (Ok acc, v))
  /\ thread_sum_local T thIndStart (thIndEnd_of thIndStart 0) v = (Ok 0, v)
  /\ (forall sum : Z, addT T (normT T sum) 0 = normT T sum)
  /\ thIndEnd_of 0 0 = SIZE_MAX
  /\ (Z.of_nat (length (data v)) <= SIZE_MAX ->
      thread_sum_local T 0 (thIndEnd_of 0 0) v
      = (Undefined OutOfBoundsAccess, v)).
Proof.
  intro H.
  assert (E : thIndEnd_of thIndStart 0 = thIndStart - 1).
  { unfold thIndEnd_of. rewrite Z.add_0_r.
    rewrite (wrap_size_small thIndStart) by lia.
    apply wrap_size_small. lia. }
  split; [|split; [exact E|split; [|split; [|split; [|split]]]]].
  - intro i. unfold thIndStart_of. rewrite Z.mul_0_r.
    change (wrap_size 0) with 0. rewrite Z.add_0_r.
    apply wrap_size_small. lia.
  - intros fuel acc. rewrite E. apply sum_loop_empty. lia.
  - rewrite E. apply sum_loop_empty. lia.
  - intro sum. unfold addT. rewrite Z.add_0_r. apply normT_idem.
  - reflexivity.
  - intro Hlen. change (thIndEnd_of 0 0) with SIZE_MAX.
    apply sum_loop_runs_off; unfold loop_fuel; lia.
Qed.

Lemma C9_witness :
  thIndEnd_of 5 0 = 4
  /\ thread_sum_local int32 5 (thIndEnd_of 5 0) (mkVectorRam [7; 9] 2)
     = (Ok 0, mkVectorRam [7; 9] 2)
  /\ thread_sum_local int32 0 (thIndEnd_of 0 0) (mkVectorRam [7; 9] 2)
     = (Undefined OutOfBoundsAccess, mkVectorRam [7; 9] 2).
Proof.
  destruct (C9_zero_block_safe_from_index_one
              int32 5 (mkVectorRam [7; 9] 2))
    as (_ & H2 & _ & H4 & _ & _ & H7).
  - vm_compute. split; discriminate.
  - split; [exact H2|]. split; [exact H4|].
    apply H7. vm_compute. discriminate.
Defined.



(** * Further properties of the code *)

(** ** Writing into the buffer *)

Lemma list_set_length (l : list Z) (n : nat) (x : Z) :
  length (list_set l n x) = length l.
Proof.
  revert n. induction l as [|h t IH]; intro n; [reflexivity|].
  destruct n; simpl; [reflexivity | f_equal; apply IH].
Qed.

Lemma firstn_list_set (l : list Z) (n : nat) (x : Z) :
  (n < length l)%nat ->
  firstn (S n) (list_set l n x) = firstn n l ++ [x].
Proof.
  revert n. induction l as [|h t IH]; intros n H; [simpl in H; lia|].
  destruct n as [|n].
  - reflexivity.
  - simpl in H. change (firstn (S (S n)) (list_set (h :: t) (S n) x))
      with (h :: firstn (S n) (list_set t n x)).
    rewrite IH by lia. reflexivity.
Qed.

Lemma InitByVal_loop_spec (val : Z) (k : nat) :
  forall (fuel : nat) (i : Z) (v : VectorRam),
    allocated v ->
    0 <= i ->
    i + Z.of_nat k = size v ->
    (k < fuel)%nat ->
    InitByVal_loop fuel i val v
    = (Ok tt, mkVectorRam (firstn (Z.to_nat i) (data v) ++ repeat val k)
                (size v)).
Proof.
  induction k as [|k IH]; intros fuel i v [Hsz Hmax] Hi Hk Hfuel;
    (destruct fuel as [|fuel]; [lia|]); simpl InitByVal_loop.
  - destruct (Z.ltb_spec i (size v)); [lia|].
    replace (Z.to_nat i) with (length (data v)) by lia.
    rewrite firstn_all, app_nil_r. destruct v; reflexivity.
  - destruct (Z.ltb_spec i (size v)); [|lia].
    unfold bind at 1, store at 1.
    destruct (Nat.ltb_spec (Z.to_nat i) (length (data v))); [|lia].
    rewrite wrap_size_small by lia.
    rewrite IH; unfold allocated; cbn [data size];
      [| rewrite list_set_length; split; assumption | lia | lia | lia].
    f_equal. f_equal.
    replace (Z.to_nat (i + 1)) with (S (Z.to_nat i)) by lia.
    rewrite firstn_list_set by assumption.
    rewrite <- app_assoc. reflexivity.
Qed.

(** X1: [InitByVal(val)] on a buffer as the constructor leaves it
    returns, sets every element to [val] and leaves [size] as it is. *)
Theorem InitByVal_fills (val : Z) (v : VectorRam) :
  allocated v ->
  InitByVal val v
  = (Ok tt, mkVectorRam (repeat val (length (data v))) (size v))
  /\ allocated (mkVectorRam (repeat val (length (data v))) (size v)).
Proof.
  intros [Hsz Hmax]. split.
  - unfold InitByVal.
    rewrite InitByVal_loop_spec with (k := length (data v));
      [reflexivity | split; assumption | lia..].
  - split; cbn [data size]; [rewrite repeat_length|]; assumption.
Qed.

Lemma InitByVal_fills_witness :
  InitByVal 7 (mkVectorRam [4; 5; 6] 3) = (Ok tt, mkVectorRam [7; 7; 7] 3).
Proof.
  apply (InitByVal_fills 7 (mkVectorRam [4; 5; 6] 3)).
  split; [reflexivity | vm_compute; discriminate].
Defined.

(** ** Printing the buffer *)

Lemma PrintToConsole_loop_spec (k : nat) :
  forall (fuel : nat) (i : Z) (out : list token) (v : VectorRam),
    allocated v ->
    0 <= i ->
    i + Z.of_nat k = size v ->
    (k < fuel)%nat ->
    PrintToConsole_loop fuel i out v
    = (Ok (out ++ flat_map (fun x => [Num x; Space])
                    (seg v (Z.to_nat i) k)), v).
Proof.
  induction k as [|k IH]; intros fuel i out v [Hsz Hmax] Hi Hk Hfuel;
    (destruct fuel as [|fuel]; [lia|]); simpl PrintToConsole_loop.
  - destruct (Z.ltb_spec i (size v)); [lia|].
    unfold seg. simpl. rewrite app_nil_r. reflexivity.
  - destruct (Z.ltb_spec i (size v)); [|lia].
    step_load v i.
    + rewrite wrap_size_small by lia.
      rewrite IH; [| split; assumption | lia..].
      rewrite (seg_cons v (Z.to_nat i) k z E).
      replace (Z.to_nat (i + 1)) with (S (Z.to_nat i)) by lia.
      simpl flat_map. rewrite <- app_assoc. reflexivity.
    + apply nth_error_None in E. lia.
Qed.

(** X2: [PrintToConsole] on a buffer as the constructor leaves it writes
    the elements in index order, each followed by a space (the last one
    too), then the end of line, and leaves the buffer as it is. *)
Theorem PrintToConsole_output (v : VectorRam) :
  allocated v ->
  PrintToConsole v
  = (Ok (flat_map (fun x => [Num x; Space]) (data v) ++ [Endl]), v).
Proof.
  intros [Hsz Hmax]. unfold PrintToConsole, bind.
  rewrite PrintToConsole_loop_spec with (k := length (data v));
    [| split; assumption | lia..].
  unfold ret, seg. simpl skipn. rewrite firstn_all. reflexivity.
Qed.

Lemma PrintToConsole_output_witness :
  PrintToConsole (mkVectorRam [4; 5] 2)
  = (Ok [Num 4; Space; Num 5; Space; Endl], mkVectorRam [4; 5] 2).
Proof.
  apply (PrintToConsole_output (mkVectorRam [4; 5] 2)).
  split; [reflexivity | vm_compute; discriminate].
Defined.

(** ** The sequential sum on any range *)

(** X3: on a range inside the buffer, [Sum(indStart, indEnd)] returns the
    sum of the elements at the indices [indStart] to [indEnd], both
    included, reduced into the element type. *)
Theorem Sum_range_in_bounds (T : IntType) (indStart indEnd : Z)
  (v : VectorRam) :
  0 <= indStart <= indEnd ->
  indEnd < Z.of_nat (length (data v)) ->
  Z.of_nat (length (data v)) <= SIZE_MAX ->
  Sum_range T indStart indEnd v
  = (Ok (normT T (Zsum (seg v (Z.to_nat indStart)
                            (Z.to_nat (indEnd - indStart + 1))))), v)
  /\ length (seg v (Z.to_nat indStart) (Z.to_nat (indEnd - indStart + 1)))
     = Z.to_nat (indEnd - indStart + 1).
Proof.
  intros Hr Hlen Hmax. split.
  - apply Sum_range_ok; assumption.
  - apply seg_length. lia.
Qed.

Lemma Sum_range_in_bounds_witness :
  Sum_range uint8 1 3 (mkVectorRam [200; 100; 100; 100; 9] 5)
  = (Ok 44, mkVectorRam [200; 100; 100; 100; 9] 5).
Proof.
  apply (Sum_range_in_bounds uint8 1 3 (mkVectorRam [200; 100; 100; 100; 9] 5)).
  - lia.
  - vm_compute. reflexivity.
  - vm_compute. discriminate.
Defined.

(** X4: [Sum(indStart, indEnd)] checks nothing.  With [indStart > indEnd]
    it returns 0 and reads no element; with [indStart <= indEnd] and
    [indEnd] at or beyond the length of the buffer it reads past the end
    of the buffer (in particular it never returns for [indEnd =
    SIZE_MAX], where the test [i <= indEnd] cannot fail). *)
Theorem Sum_range_unchecked (T : IntType) (indStart indEnd : Z)
  (v : VectorRam) :
  0 <= indStart <= SIZE_MAX ->
  0 <= indEnd <= SIZE_MAX ->
  Z.of_nat (length (data v)) <= SIZE_MAX ->
  (indEnd < indStart -> Sum_range T indStart indEnd v = (Ok 0, v))
  /\ (indStart <= indEnd ->
      Z.of_nat (length (data v)) <= indEnd ->
      Sum_range T indStart indEnd v = (Undefined OutOfBoundsAccess, v)).
Proof.
  intros Hs He Hmax. split.
  - intro H. apply sum_loop_empty, H.
  - intros Hle Hlen. unfold Sum_range.
    destruct (Z.le_gt_cases indStart (Z.of_nat (length (data v))))
      as [Hin | Hout].
    + apply sum_loop_runs_off; unfold loop_fuel; lia.
    + unfold loop_fuel. simpl sum_loop.
      destruct (Z.leb_spec indStart indEnd); [|lia].
      step_load v indStart; [|reflexivity].
      assert (Z.to_nat indStart < length (data v))%nat
        by (apply nth_error_Some; congruence).
      lia.
Qed.

Lemma Sum_range_unchecked_witness :
  Sum_range int32 2 1 (mkVectorRam [4; 5; 6] 3)
  = (Ok 0, mkVectorRam [4; 5; 6] 3)
  /\ Sum_range int32 0 3 (mkVectorRam [4; 5; 6] 3)
     = (Undefined OutOfBoundsAccess, mkVectorRam [4; 5; 6] 3).
Proof.
  split.
  - apply (Sum_range_unchecked int32 2 1 (mkVectorRam [4; 5; 6] 3));
      vm_compute; try split; try discriminate; reflexivity.
  - apply (Sum_range_unchecked int32 0 3 (mkVectorRam [4; 5; 6] 3));
      vm_compute; try split; discriminate.
Defined.

(** X5: for an integer element type (whose [+=] wraps around), the sum
    over a range is the sum, in the element type, of the sums over its
    two parts: [Sum(a, c) = Sum(a, b) + Sum(b+1, c)] for [a <= b < c]
    inside the buffer. *)
Theorem Sum_range_split (T : IntType) (a b c : Z) (v : VectorRam) :
  0 <= a <= b ->
  b < c ->
  c < Z.of_nat (length (data v)) ->
  Z.of_nat (length (data v)) <= SIZE_MAX ->
  exists x y : Z,
    Sum_range T a b v = (Ok x, v)
    /\ Sum_range T (b + 1) c v = (Ok y, v)
    /\ Sum_range T a c v = (Ok (addT T x y), v).
Proof.
  intros Hab Hbc Hc Hmax.
  do 2 eexists. rewrite !Sum_range_ok by lia.
  split; [reflexivity|]. split; [reflexivity|].
  f_equal. f_equal. unfold addT.
  rewrite normT_add_l, normT_add_r, <- Zsum_app. f_equal. f_equal.
  replace (Z.to_nat (c - a + 1))
    with (Z.to_nat (b - a + 1) + Z.to_nat (c - (b + 1) + 1))%nat by lia.
  rewrite seg_split. f_equal. f_equal. lia.
Qed.

Lemma Sum_range_split_witness :
  exists x y : Z,
    Sum_range uint8 0 1 (mkVectorRam [200; 100; 7; 9] 4)
    = (Ok x, mkVectorRam [200; 100; 7; 9] 4)
    /\ Sum_range uint8 (1 + 1) 3 (mkVectorRam [200; 100; 7; 9] 4)
       = (Ok y, mkVectorRam [200; 100; 7; 9] 4)
    /\ Sum_range uint8 0 3 (mkVectorRam [200; 100; 7; 9] 4)
       = (Ok (addT uint8 x y), mkVectorRam [200; 100; 7; 9] 4).
Proof.
  apply (Sum_range_split uint8 0 1 3 (mkVectorRam [200; 100; 7; 9] 4)).
  - lia.
  - lia.
  - vm_compute. reflexivity.
  - vm_compute. discriminate.
Defined.

(** ** The parallel sum *)

(** X6: for an integer element type (whose [+=] wraps around), a range
    inside the buffer, a thread count of at least 1, and
    either a range that does not start at index 0 or a thread count no
    larger than the number of elements of the range, the parallel sum
    returns what the sequential sum returns, in whatever order the workers
    take the mutex. *)
Theorem Sum_range_par_equals_sequential
  (T : IntType) (sched : list nat) (indStart indEnd threadsNum : Z)
  (v : VectorRam) :
  0 <= indStart <= indEnd ->
  indEnd < Z.of_nat (length (data v)) ->
  Z.of_nat (length (data v)) <= SIZE_MAX ->
  1 <= threadsNum <= UINT_MAX ->
  1 <= indStart \/ threadsNum <= indEnd - indStart + 1 ->
  valid_schedule (Z.to_nat threadsNum) sched = true ->
  Sum_range_par T sched indStart indEnd threadsNum v
  = Sum_range T indStart indEnd v
  /\ is_value (fst (Sum_range T indStart indEnd v)) = true.
Proof.
  intros Hr Hlen Hmax Hn Hw Hs.
  rewrite Sum_range_par_ok by (assumption || lia).
  rewrite Sum_range_ok by assumption.
  split; reflexivity.
Qed.

Lemma Sum_range_par_equals_sequential_witness :
  Sum_range_par uint8 [1; 2; 0]%nat 1 2 3 (mkVectorRam [3; 200; 100] 3)
  = Sum_range uint8 1 2 (mkVectorRam [3; 200; 100] 3).
Proof.
  apply (Sum_range_par_equals_sequential
           uint8 [1; 2; 0]%nat 1 2 3 (mkVectorRam [3; 200; 100] 3)).
  - lia.
  - vm_compute. reflexivity.
  - vm_compute. discriminate.
  - vm_compute. split; discriminate.
  - left. lia.
  - reflexivity.
Defined.

Lemma launch_length (k : nat) :
  forall i indStart indEnd thBlockSize threadsNum : Z,
    length (launch k i indStart indEnd thBlockSize threadsNum) = k.
Proof.
  induction k as [|k IH]; intros; [reflexivity|].
  simpl. f_equal. apply IH.
Qed.

Lemma run_workers_length (T : IntType) (plan : list (Z * Z)) :
  forall (v v' : VectorRam) (locals : list Z),
    run_workers T plan v = (Ok locals, v') ->
    length locals = length plan.
Proof.
  induction plan as [|[a b] plan IH]; intros v v' locals H.
  - inversion H. reflexivity.
  - simpl in H. unfold bind at 1 in H.
    destruct (thread_sum_local T a b v) as [[l| | |] v1]; try discriminate.
    unfold bind at 1 in H.
    destruct (run_workers T plan v1) as [[ls| | |] v2] eqn:E;
      try discriminate.
    inversion H. simpl. f_equal. apply (IH v1 v2 ls E).
Qed.

(** X7: for an integer element type (whose [+=] wraps around), the value
    of the parallel sum does not depend on the order in which the workers
    take the mutex: on every buffer of such elements and for all
    arguments, two schedules in which every worker takes the mutex once
    give the same outcome. *)
Theorem Sum_range_par_schedule_independent
  (T : IntType) (sched1 sched2 : list nat)
  (indStart indEnd threadsNum : Z) (v : VectorRam) :
  valid_schedule (Z.to_nat threadsNum) sched1 = true ->
  valid_schedule (Z.to_nat threadsNum) sched2 = true ->
  Sum_range_par T sched1 indStart indEnd threadsNum v
  = Sum_range_par T sched2 indStart indEnd threadsNum v.
Proof.
  intros H1 H2. unfold Sum_range_par.
  destruct (threadsNum =? 0); [reflexivity|].
  unfold bind.
  destruct (run_workers T (partition_plan indStart indEnd threadsNum) v)
    as [[locals| | |] v'] eqn:E; try reflexivity.
  apply run_workers_length in E.
  unfold partition_plan in E. rewrite launch_length in E.
  unfold ret. f_equal. f_equal.
  destruct locals as [|l ls].
  - simpl in E. rewrite <- E in H1, H2.
    unfold valid_schedule in H1, H2.
    apply andb_prop in H1, H2. destruct H1 as [H1 _], H2 as [H2 _].
    apply Nat.eqb_eq in H1, H2.
    destruct sched1; [|discriminate]. destruct sched2; [|discriminate].
    reflexivity.
  - rewrite <- E in H1, H2.
    rewrite !merge_any_order by (assumption || discriminate).
    reflexivity.
Qed.

Lemma Sum_range_par_schedule_independent_witness :
  Sum_range_par uint8 [0; 1; 2]%nat 0 3 3 (mkVectorRam [200; 100; 7; 9] 4)
  = Sum_range_par uint8 [2; 0; 1]%nat 0 3 3
      (mkVectorRam [200; 100; 7; 9] 4).
Proof.
  apply (Sum_range_par_schedule_independent
           uint8 [0; 1; 2]%nat [2; 0; 1]%nat 0 3 3
           (mkVectorRam [200; 100; 7; 9] 4));
    reflexivity.
Defined.

(** ** The plan of the parallel sum *)

(** X8: for a range that starts at an index of at least 1, or has at
    least as many elements as there are workers, the plan is the one of
    the formula; every worker but the last gets exactly
    [b = floor(len / threadsNum)] indices and the last one gets
    [b + len mod threadsNum]. *)
Theorem partition_plan_blocks (indStart indEnd threadsNum : Z) :
  0 <= indStart <= indEnd ->
  indEnd < SIZE_MAX ->
  1 <= threadsNum <= UINT_MAX ->
  1 <= indStart \/ threadsNum <= indEnd - indStart + 1 ->
  let len := indEnd - indStart + 1 in
  let b := len / threadsNum in
  partition_plan indStart indEnd threadsNum
  = spec_plan indStart indEnd threadsNum
  /\ (forall r : Z * Z,
        In r (removelast (partition_plan indStart indEnd threadsNum)) ->
        Z.of_nat (length (indices r)) = b)
  /\ Z.of_nat (length (indices
                 (last (partition_plan indStart indEnd threadsNum) (0, 0))))
     = b + len mod threadsNum.
Proof.
  intros Hr He Hn Hw len b.
  destruct (thBlockSize_bounds indStart indEnd threadsNum)
    as (Hb & Hnb & _); [assumption..|].
  fold len in Hb, Hnb. fold b in Hb, Hnb.
  rewrite partition_plan_spec by assumption.
  split; [reflexivity|]. unfold spec_plan. fold len. fold b.
  rewrite removelast_last, last_last. split.
  - intros r Hin. apply in_map_iff in Hin. destruct Hin as (i & Hi & _).
    subst r. unfold indices. rewrite length_map, length_seq. cbn [fst snd].
    replace (indStart + (i + 1) * b - 1 - (indStart + i * b) + 1) with b
      by ring.
    lia.
  - unfold indices. rewrite length_map, length_seq. cbn [fst snd].
    pose proof (Z_div_mod_eq_full len threadsNum) as Hdm. fold b in Hdm.
    replace (indEnd - (indStart + (threadsNum - 1) * b) + 1)
      with (len - threadsNum * b + b) by (unfold len; ring).
    lia.
Qed.

Lemma partition_plan_blocks_witness :
  partition_plan 2 12 4 = [(2, 3); (4, 5); (6, 7); (8, 12)]
  /\ Z.of_nat (length (indices (last (partition_plan 2 12 4) (0, 0))))
     = 11 / 4 + 11 mod 4.
Proof.
  destruct (partition_plan_blocks 2 12 4) as (H1 & _ & H3).
  - lia.
  - reflexivity.
  - vm_compute. split; discriminate.
  - left. lia.
  - split; [rewrite H1; reflexivity | exact H3].
Defined.

(** X9: under the same conditions the ranges of the plan, taken in the
    order of the workers, go through the indices [indStart], ...,
    [indEnd] once each and in increasing order: the ranges are
    contiguous, they do not overlap, and they cover the input range and
    nothing else. *)
Theorem partition_plan_exact_cover (indStart indEnd threadsNum : Z) :
  0 <= indStart <= indEnd ->
  indEnd < SIZE_MAX ->
  1 <= threadsNum <= UINT_MAX ->
  1 <= indStart \/ threadsNum <= indEnd - indStart + 1 ->
  concat (map indices (partition_plan indStart indEnd threadsNum))
  = indices (indStart, indEnd)
  /\ NoDup (concat (map indices (partition_plan indStart indEnd threadsNum)))
  /\ (forall i : Z,
        In i (concat (map indices
                        (partition_plan indStart indEnd threadsNum)))
        <-> indStart <= i <= indEnd).
Proof.
  intros Hr He Hn Hw.
  rewrite partition_plan_covers by assumption.
  split; [reflexivity|]. unfold indices. cbn [fst snd]. split.
  - apply Finite.Injective_map_NoDup; [|apply seq_NoDup].
    intros x y Hxy. lia.
  - intro i. rewrite in_map_iff. split.
    + intros (k & Hk & Hin). apply in_seq in Hin. lia.
    + intro Hi. exists (Z.to_nat (i - indStart)). split; [lia|].
      apply in_seq. lia.
Qed.

Lemma partition_plan_exact_cover_witness :
  concat (map indices (partition_plan 1 2 4)) = [1; 2].
Proof.
  apply (partition_plan_exact_cover 1 2 4).
  - lia.
  - reflexivity.
  - vm_compute. split; discriminate.
  - left. lia.
Defined.

Lemma launch_last (indStart indEnd thBlockSize threadsNum : Z) (k : nat) :
  forall i : Z,
    0 <= i ->
    i + Z.of_nat (S k) = threadsNum ->
    threadsNum <= UINT_MAX ->
    snd (last (launch (S k) i indStart indEnd thBlockSize threadsNum) (0, 0))
    = indEnd.
Proof.
  induction k as [|k IH]; intros i Hi Hk Hn.
  - rewrite launch_S. simpl launch. cbn [last snd].
    rewrite wrap_uint_small by lia.
    destruct (Z.eqb_spec i (threadsNum - 1)); [reflexivity | lia].
  - rewrite launch_S.
    assert (Hmax : UINT_MAX < SIZE_MAX) by reflexivity.
    rewrite wrap_size_small by lia.
    specialize (IH (i + 1) ltac:(lia) ltac:(lia) Hn).
    rewrite launch_S in IH |- *. exact IH.
Qed.

(** X10: whatever the range, a call with [threadsNum >= 1] launches
    exactly [threadsNum] workers, also when the range has fewer elements;
    the first worker starts at [indStart] and the last one ends at
    [indEnd]. *)
Theorem partition_plan_workers (indStart indEnd threadsNum : Z) :
  0 <= indStart <= SIZE_MAX ->
  1 <= threadsNum <= UINT_MAX ->
  length (partition_plan indStart indEnd threadsNum) = Z.to_nat threadsNum
  /\ fst (hd (0, 0) (partition_plan indStart indEnd threadsNum)) = indStart
  /\ snd (last (partition_plan indStart indEnd threadsNum) (0, 0)) = indEnd.
Proof.
  intros Hs Hn. unfold partition_plan. split; [apply launch_length|].
  replace (Z.to_nat threadsNum) with (S (Z.to_nat (threadsNum - 1))) by lia.
  split.
  - rewrite launch_S. cbn [hd fst]. unfold thIndStart_of.
    rewrite Z.mul_0_l. change (wrap_size 0) with 0. rewrite Z.add_0_r.
    apply wrap_size_small. lia.
  - apply launch_last; lia.
Qed.

Lemma partition_plan_workers_witness :
  length (partition_plan 0 1 5) = 5%nat
  /\ fst (hd (0, 0) (partition_plan 0 1 5)) = 0
  /\ snd (last (partition_plan 0 1 5) (0, 0)) = 1.
Proof.
  apply (partition_plan_workers 0 1 5); vm_compute; split; discriminate.
Defined.

(** ** Filling, then summing *)

Lemma Zsum_repeat (val : Z) (k : nat) :
  Zsum (repeat val k) = Z.of_nat k * val.
Proof.
  induction k as [|k IH]; [reflexivity|].
  change (Zsum (repeat val (S k))) with (val + Zsum (repeat val k)).
  rewrite IH. lia.
Qed.

Lemma skipn_repeat (val : Z) (a : nat) :
  forall n : nat, skipn a (repeat val n) = repeat val (n - a).
Proof.
  induction a as [|a IH]; intro n.
  - rewrite Nat.sub_0_r. reflexivity.
  - destruct n as [|n]; [reflexivity | apply IH].
Qed.

Lemma firstn_repeat (val : Z) (k : nat) :
  forall m : nat, (k <= m)%nat -> firstn k (repeat val m) = repeat val k.
Proof.
  induction k as [|k IH]; intros m H; [reflexivity|].
  destruct m as [|m]; [lia|]. simpl. f_equal. apply IH. lia.
Qed.

Lemma seg_repeat (val sz : Z) (n a k : nat) :
  (a + k <= n)%nat ->
  seg (mkVectorRam (repeat val n) sz) a k = repeat val k.
Proof.
  intro H. unfold seg. cbn [data].
  rewrite skipn_repeat. apply firstn_repeat. lia.
Qed.

(** X11: for an integer element type (whose [+=] wraps around), filling
    a buffer with [val] and then summing the range [indStart..indEnd]
    gives [(indEnd - indStart + 1) * val], reduced into the element type:
    both ends of the range are counted, so [Sum(0, size/2)] adds
    [size/2 + 1] elements.  The parallel sum gives
    the same, for a thread count between 1 and the number of elements of
    the range (or a range that starts at 1 or later) and any order of the
    workers at the mutex. *)
Theorem InitByVal_then_Sum
  (T : IntType) (sched : list nat) (val indStart indEnd threadsNum : Z)
  (v : VectorRam) :
  allocated v ->
  0 <= indStart <= indEnd ->
  indEnd < size v ->
  1 <= threadsNum <= UINT_MAX ->
  1 <= indStart \/ threadsNum <= indEnd - indStart + 1 ->
  valid_schedule (Z.to_nat threadsNum) sched = true ->
  let filled := mkVectorRam (repeat val (length (data v))) (size v) in
  (_ <- InitByVal val ;; Sum_range T indStart indEnd) v
  = (Ok (normT T ((indEnd - indStart + 1) * val)), filled)
  /\ (_ <- InitByVal val ;; Sum_range_par T sched indStart indEnd threadsNum)
       v
     = (Ok (normT T ((indEnd - indStart + 1) * val)), filled).
Proof.
  intros Ha Hr He Hn Hw Hs filled.
  destruct (InitByVal_fills val v Ha) as [Hfill _].
  destruct Ha as [Hsz Hmax].
  assert (Hlen : length (data filled) = length (data v))
    by apply repeat_length.
  assert (Hsum : normT T (Zsum (seg filled (Z.to_nat indStart)
                                  (Z.to_nat (indEnd - indStart + 1))))
                 = normT T ((indEnd - indStart + 1) * val)).
  { unfold filled. rewrite seg_repeat by lia. rewrite Zsum_repeat.
    f_equal. f_equal. lia. }
  unfold bind. rewrite Hfill. fold filled. split.
  - rewrite Sum_range_ok by (rewrite ?Hlen; lia).
    rewrite Hsum. reflexivity.
  - rewrite Sum_range_par_ok by (rewrite ?Hlen; assumption || lia).
    rewrite Hsum. reflexivity.
Qed.

Lemma InitByVal_then_Sum_witness :
  (_ <- InitByVal 3 ;; Sum_range int32 0 (8 / 2)) ones8
  = (Ok 15, mkVectorRam [3; 3; 3; 3; 3; 3; 3; 3] 8)
  /\ (_ <- InitByVal 3 ;; Sum_range_par int32 [3; 1; 0; 2]%nat 0 (8 / 2) 4)
       ones8
     = (Ok 15, mkVectorRam [3; 3; 3; 3; 3; 3; 3; 3] 8).
Proof.
  apply (InitByVal_then_Sum int32 [3; 1; 0; 2]%nat 3 0 (8 / 2) 4 ones8).
  - split; [reflexivity | vm_compute; discriminate].
  - vm_compute. split; discriminate.
  - reflexivity.
  - vm_compute. split; discriminate.
  - right. vm_compute. discriminate.
  - reflexivity.
Defined.
